(** * IOManager: waiting on the state, message modules and run_on

    A shallow embedding of [src/include/iomgr.hpp] (class [iomgr::IOManager]).
    The header defines the state enum, the state accessors, the waiting
    functions, [ensure_running], the reactor self-classification queries,
    the two [run_on] overloads and the default-interface getters; these are
    translated from the code.  Of the functions the header only declares,
    [register_msg_module], [send_msg], [send_msg_and_wait],
    [multicast_msg], [multicast_msg_and_wait], [this_reactor] and the
    constructor are modelled from the specification and marked as such. *)

From Stdlib Require Import ZArith Sorted.
From stdpp Require Import base option list gmap strings.

(** ** The Manager state *)

(** [ENUM(iomgr_state, uint16_t, stopped, interface_init, reactor_init,
    sys_init, running, stopping)] *)
Inductive iomgr_state : Type :=
  | stopped
  | interface_init
  | reactor_init
  | sys_init
  | running
  | stopping.

#[global] Instance iomgr_state_eq_dec : EqDecision iomgr_state.
Proof. solve_decision. Defined.

(** The underlying [uint16_t] value of an enumerator (declaration order). *)
Definition iomgr_state_val (s : iomgr_state) : Z :=
  match s with
  | stopped => 0%Z
  | interface_init => 1%Z
  | reactor_init => 2%Z
  | sys_init => 3%Z
  | running => 4%Z
  | stopping => 5%Z
  end.

(** ** Waiting on the state

    [get_state()] is an atomic load of [m_state]; other threads store to it
    without taking [m_cv_mtx].  A waiting thread is therefore modelled
    against the list of values its successive [get_state()] calls read:
    the head is what the next load returns.  [None] means that the thread
    has not returned on the loads it was given (it is still inside
    [m_cv.wait]). *)

(** [m_cv.wait(lck, pred)] is [while (!pred()) wait(lck);]: every failed
    evaluation of the predicate is followed by one block on the condition
    variable.  The result is the number of blocks and the loads left. *)
Fixpoint cv_wait (pred : iomgr_state → bool) (obs : list iomgr_state)
  : option (nat * list iomgr_state) :=
  match obs with
  | [] => None
  | st :: rest =>
      if pred st then Some (O, rest)
      else match cv_wait pred rest with
           | Some (n, rest') => Some (S n, rest')
           | None => None
           end
  end.

(** [wait_to_be_ready]: lock, then [m_cv.wait(lck, state == running)]. *)
Definition wait_to_be_ready (obs : list iomgr_state)
  : option (nat * list iomgr_state) :=
  cv_wait (λ st, bool_decide (st = running)) obs.

(** [wait_to_be_stopped]: lock; [if (get_state() != stopped)] wait for
    [state == stopped]. *)
Definition wait_to_be_stopped (obs : list iomgr_state)
  : option (nat * list iomgr_state) :=
  match obs with
  | [] => None
  | st :: rest =>
      if bool_decide (st ≠ stopped)
      then cv_wait (λ st', bool_decide (st' = stopped)) rest
      else Some (O, rest)
  end.

(** [wait_for_state(expected_state)]: the same with [expected_state]. *)
Definition wait_for_state (expected_state : iomgr_state)
    (obs : list iomgr_state) : option (nat * list iomgr_state) :=
  match obs with
  | [] => None
  | st :: rest =>
      if bool_decide (st ≠ expected_state)
      then cv_wait (λ st', bool_decide (st' = expected_state)) rest
      else Some (O, rest)
  end.

(** [is_ready()] on the value read. *)
Definition is_ready (st : iomgr_state) : bool := bool_decide (st = running).

(** [ensure_running]: [if (get_state() != running) { LOGINFO(..);
    wait_to_be_ready(); LOGINFO(..); }].  The result carries the lines
    logged, the number of blocks and the loads left. *)
Definition ensure_running (obs : list iomgr_state)
  : option (list string * nat * list iomgr_state) :=
  match obs with
  | [] => None
  | st :: rest =>
      if bool_decide (st ≠ running)
      then match wait_to_be_ready rest with
           | Some (n, rest') =>
               Some (["IOManager is not running, will wait for it to be ready";
                      "IOManager is ready now"]%string, n, rest')
           | None => None
           end
      else Some ([], O, rest)
  end.

(** The loads of a waiter against the history of the state: [h] lists the
    values [m_state] takes over time ([h !! t] is the value after [t]
    stores), and the waiter evaluates its predicate at the times [ts]. *)
Definition observe (h : list iomgr_state) (ts : list nat) : list iomgr_state :=
  omap (λ t, h !! t) ts.

(** ** Messages, reactors and interfaces

    [iomgr_msg.hpp], [reactor.hpp], [io_interface.hpp] and
    [drive_interface.hpp] are included by the header but are not part of
    the sources; the types below carry what the header and the
    specification say about them. *)

(** [msg_module_id_t] and [io_thread_t] are small integer handles. *)
Abbreviation msg_module_id_t := nat (only parsing).
Abbreviation io_thread_t := nat (only parsing).

(** Modelled from the spec: [iomgr_msg_type], of which the header uses
    [RUN_METHOD]; the other types are defined by interfaces. *)
Inductive iomgr_msg_type : Type :=
  | RUN_METHOD
  | INTERFACE_MSG (kind : nat).

(** A zero-argument callable shipped to a reactor, known by its identity;
    running it is recorded by the reactor that ran it. *)
Inductive run_method_t : Type :=
  | Method (label : nat).

(** Modelled from the spec: [iomgr_msg] is {type, module identifier,
    payload}; [sync_iomgr_msg] additionally carries a completion signal
    ([m_is_sync]). *)
Record iomgr_msg : Type := mk_iomgr_msg {
  m_type : iomgr_msg_type;
  m_dest_module : msg_module_id_t;
  m_method : option run_method_t;
  m_is_sync : bool;
}.

(** [iomgr_msg::create(type, module, fn)] *)
Definition iomgr_msg_create (t : iomgr_msg_type) (module : msg_module_id_t)
    (fn : run_method_t) : iomgr_msg :=
  mk_iomgr_msg t module (Some fn) false.

(** [sync_iomgr_msg smsg(type, module, fn)] *)
Definition sync_iomgr_msg (t : iomgr_msg_type) (module : msg_module_id_t)
    (fn : run_method_t) : iomgr_msg :=
  mk_iomgr_msg t module (Some fn) true.

(** [msg_handler_t], a [std::function] taking the message, known by its
    identity: the Manager's own handler or a handler a user registered. *)
Inductive msg_handler_t : Type :=
  | internal_handler
  | user_handler (name : nat).

(** Modelled from the spec: a reactor is classified by its flags
    (io-capable, tight-loop, worker), has an inbound message queue, and
    executes dispatched messages; [r_dispatched] records, in order, each
    message executed together with the handler found for its module. *)
Record IOReactor : Type := mk_IOReactor {
  r_is_io : bool;
  r_is_tloop : bool;
  r_is_worker : bool;
  r_inbound : list iomgr_msg;
  r_wakeups : nat;
  r_dispatched : list (option msg_handler_t * iomgr_msg);
}.

Definition is_io_reactor (r : IOReactor) : bool := r_is_io r.
Definition is_tight_loop_reactor (r : IOReactor) : bool := r_is_tloop r.
Definition is_worker (r : IOReactor) : bool := r_is_worker r.

Record GenericIOInterface : Type := mk_GenericIOInterface { generic_id : nat }.
Record DriveInterface : Type := mk_DriveInterface { drive_id : nat }.

Inductive IOInterface : Type :=
  | iface_generic (g : GenericIOInterface)
  | iface_drive (d : DriveInterface)
  | iface_custom (id : nat).

(** Modelled from the spec: [thread_regex], the group selector
    (all | all-workers | all-tight-loop | random-worker |
    random-tight-loop). *)
Inductive thread_regex : Type :=
  | regex_all
  | regex_all_worker
  | regex_all_tloop
  | regex_random_worker
  | regex_random_tloop.

(** ** The Manager *)

(** [static constexpr uint32_t max_msg_modules = 64;] *)
Definition max_msg_modules : nat := 64.
(** [static constexpr int inbuilt_interface_count = 1;] *)
Definition inbuilt_interface_count : nat := 1.

(** The data members of [IOManager] the operations below use.  A
    [std::shared_ptr] that may be null is an [option]; an empty
    [std::function] slot of [m_msg_handlers] is [None]; [m_cv] keeps the
    states that were announced with [notify_all], oldest first. *)
Record IOManager : Type := mk_IOManager {
  m_state : iomgr_state;
  m_yet_to_start_nreactors : Z;
  m_yet_to_stop_nreactors : Z;
  m_iface_list : list IOInterface;
  m_drive_ifaces : list DriveInterface;
  m_default_drive_iface : option DriveInterface;
  m_default_general_iface : option GenericIOInterface;
  m_reactors : gmap io_thread_t IOReactor;
  m_cv : list iomgr_state;
  m_msg_handlers : list (option msg_handler_t);
  m_msg_handlers_count : nat;
  m_internal_msg_module_id : msg_module_id_t;
}.

Definition with_state (st : iomgr_state) (m : IOManager) : IOManager :=
  mk_IOManager st (m_yet_to_start_nreactors m) (m_yet_to_stop_nreactors m)
    (m_iface_list m) (m_drive_ifaces m) (m_default_drive_iface m)
    (m_default_general_iface m) (m_reactors m) (m_cv m) (m_msg_handlers m)
    (m_msg_handlers_count m) (m_internal_msg_module_id m).

Definition with_cv (cv : list iomgr_state) (m : IOManager) : IOManager :=
  mk_IOManager (m_state m) (m_yet_to_start_nreactors m)
    (m_yet_to_stop_nreactors m) (m_iface_list m) (m_drive_ifaces m)
    (m_default_drive_iface m) (m_default_general_iface m) (m_reactors m) cv
    (m_msg_handlers m) (m_msg_handlers_count m) (m_internal_msg_module_id m).

Definition with_reactors (rs : gmap io_thread_t IOReactor) (m : IOManager)
  : IOManager :=
  mk_IOManager (m_state m) (m_yet_to_start_nreactors m)
    (m_yet_to_stop_nreactors m) (m_iface_list m) (m_drive_ifaces m)
    (m_default_drive_iface m) (m_default_general_iface m) rs (m_cv m)
    (m_msg_handlers m) (m_msg_handlers_count m) (m_internal_msg_module_id m).

Definition with_msg_handlers (hs : list (option msg_handler_t)) (n : nat)
    (m : IOManager) : IOManager :=
  mk_IOManager (m_state m) (m_yet_to_start_nreactors m)
    (m_yet_to_stop_nreactors m) (m_iface_list m) (m_drive_ifaces m)
    (m_default_drive_iface m) (m_default_general_iface m) (m_reactors m)
    (m_cv m) hs n (m_internal_msg_module_id m).

Definition with_internal_msg_module_id (id : msg_module_id_t) (m : IOManager)
  : IOManager :=
  mk_IOManager (m_state m) (m_yet_to_start_nreactors m)
    (m_yet_to_stop_nreactors m) (m_iface_list m) (m_drive_ifaces m)
    (m_default_drive_iface m) (m_default_general_iface m) (m_reactors m)
    (m_cv m) (m_msg_handlers m) (m_msg_handlers_count m) id.

(** *** State accessors (from the header) *)

(** [set_state]: [m_state.store(state, release)] *)
Definition set_state (state : iomgr_state) (m : IOManager) : IOManager :=
  with_state state m.

(** [get_state]: [m_state.load(acquire)] *)
Definition get_state (m : IOManager) : iomgr_state := m_state m.

(** [set_state_and_notify]: [set_state(state); m_cv.notify_all();] *)
Definition set_state_and_notify (state : iomgr_state) (m : IOManager)
  : IOManager :=
  let m1 := set_state state m in
  with_cv (m_cv m1 ++ [state]) m1.

(** *** Default interfaces (from the header) *)

(** [default_drive_interface]: [m_default_drive_iface.get()], null when
    the shared pointer is empty. *)
Definition default_drive_interface (m : IOManager) : option DriveInterface :=
  m_default_drive_iface m.

(** [generic_interface]: [m_default_general_iface.get()]. *)
Definition generic_interface (m : IOManager) : option GenericIOInterface :=
  m_default_general_iface m.

(** *** Reactor self-classification (from the header)

    [this_reactor()] is declared only.  Modelled from the spec: the
    calling thread's own context holds its identity when the thread is
    attached to a reactor ([self]), and the reactor is looked up from it;
    a thread that is not attached gets a null pointer. *)
Definition this_reactor (m : IOManager) (self : option io_thread_t)
  : option IOReactor :=
  self ≫= λ t, m_reactors m !! t.

(** [r->query()]: a member call through a pointer, which fails ([None])
    on a null pointer. *)
Definition reactor_call (query : IOReactor → bool) (r : option IOReactor)
  : option bool :=
  query <$> r.

(** [r && r->query()]: the right operand is evaluated only when [r] is not
    null. *)
Definition guarded_call (query : IOReactor → bool) (r : option IOReactor)
  : option bool :=
  match r with
  | None => Some false
  | Some _ => reactor_call query r
  end.

Definition am_i_io_reactor (m : IOManager) (self : option io_thread_t)
  : option bool :=
  let r := this_reactor m self in
  guarded_call is_io_reactor r.

Definition am_i_tight_loop_reactor (m : IOManager) (self : option io_thread_t)
  : option bool :=
  let r := this_reactor m self in
  guarded_call is_tight_loop_reactor r.

Definition am_i_worker_reactor (m : IOManager) (self : option io_thread_t)
  : option bool :=
  let r := this_reactor m self in
  guarded_call is_worker r.

(** *** Message modules *)

(** Modelled from the spec: [register_msg_module(handler)] is declared
    only.  It installs the handler in the next free slot and returns the
    slot; once the [max_msg_modules] slots are used it fails ([None]) and
    leaves the Manager as it is. *)
Definition register_msg_module (handler : msg_handler_t) (m : IOManager)
  : option msg_module_id_t * IOManager :=
  let id := m_msg_handlers_count m in
  if bool_decide (id < max_msg_modules)%nat
  then (Some id,
        with_msg_handlers (<[id := Some handler]> (m_msg_handlers m)) (S id) m)
  else (None, m).

(** The handler a table holds for a module id, if any. *)
Definition handler_of (handlers : list (option msg_handler_t))
    (id : msg_module_id_t) : option msg_handler_t :=
  mjoin (handlers !! id).

(** Modelled from the spec: [get_msg_module(id)], the handler of a slot. *)
Definition get_msg_module (id : msg_module_id_t) (m : IOManager)
  : option msg_handler_t :=
  handler_of (m_msg_handlers m) id.

(** A sequence of registrations, with the result of each call. *)
Fixpoint register_all (handlers : list msg_handler_t) (m : IOManager)
  : list (option msg_module_id_t) * IOManager :=
  match handlers with
  | [] => ([], m)
  | h :: hs =>
      let '(id, m1) := register_msg_module h m in
      let '(ids, m2) := register_all hs m1 in
      (id :: ids, m2)
  end.

(** *** The message bus *)

(** Modelled from the spec: delivery enqueues the message on the
    reactor's inbound queue and wakes the reactor if it can block (a
    tight-loop reactor never blocks). *)
Definition deliver_msg (msg : iomgr_msg) (r : IOReactor) : IOReactor :=
  mk_IOReactor (r_is_io r) (r_is_tloop r) (r_is_worker r)
    (r_inbound r ++ [msg])
    (if r_is_tloop r then r_wakeups r else S (r_wakeups r))
    (r_dispatched r).

(** Modelled from the spec: dispatch on the receiving reactor pops each
    message, looks up the handler of its module id and invokes it with the
    message. *)
Definition process_inbound (handlers : list (option msg_handler_t))
    (r : IOReactor) : IOReactor :=
  mk_IOReactor (r_is_io r) (r_is_tloop r) (r_is_worker r) [] (r_wakeups r)
    (r_dispatched r
       ++ ((λ msg, (handler_of handlers (m_dest_module msg), msg)) <$> r_inbound r)).

(** Modelled from the spec: [send_msg(thread, msg)] is declared only.  It
    returns false when the handle does not resolve to a live reactor, and
    the message is then not enqueued anywhere. *)
Definition send_msg (thread : io_thread_t) (msg : iomgr_msg) (m : IOManager)
  : bool * IOManager :=
  match m_reactors m !! thread with
  | Some r => (true, with_reactors (<[thread := deliver_msg msg r]> (m_reactors m)) m)
  | None => (false, m)
  end.

(** Modelled from the spec: [send_msg_and_wait(thread, smsg)] is declared
    only.  As [send_msg], and the caller is blocked until the target has
    executed the message: on return the target has worked off its queue
    up to and including the message. *)
Definition send_msg_and_wait (thread : io_thread_t) (smsg : iomgr_msg)
    (m : IOManager) : bool * IOManager :=
  match m_reactors m !! thread with
  | Some r =>
      (true,
       with_reactors
         (<[thread := process_inbound (m_msg_handlers m) (deliver_msg smsg r)]>
            (m_reactors m)) m)
  | None => (false, m)
  end.

Definition regex_matches (r : thread_regex) (reactor : IOReactor) : bool :=
  match r with
  | regex_all => true
  | regex_all_worker | regex_random_worker => is_worker reactor
  | regex_all_tloop | regex_random_tloop => is_tight_loop_reactor reactor
  end.

Definition regex_is_random (r : thread_regex) : bool :=
  match r with
  | regex_random_worker | regex_random_tloop => true
  | _ => false
  end.

(** The live reactors a selector's predicate accepts. *)
Definition live_matching (r : thread_regex) (m : IOManager) : list io_thread_t :=
  (map_to_list (filter (λ kv, regex_matches r kv.2 = true) (m_reactors m))).*1.

(** Modelled from the spec: [_pick_reactors(r, cb)] is declared only.  The
    selector is resolved once against the live reactors; a random
    selector keeps one of the matching reactors, chosen by [rnd]. *)
Definition _pick_reactors (r : thread_regex) (rnd : nat) (m : IOManager)
  : list io_thread_t :=
  let c := live_matching r m in
  if regex_is_random r
  then match c !! (Nat.modulo rnd (length c)) with
       | Some t => [t]
       | None => []
       end
  else c.

(** Send to each target in turn and count the sends that succeeded. *)
Fixpoint multicast_to (send : io_thread_t → IOManager → bool * IOManager)
    (targets : list io_thread_t) (m : IOManager) : Z * IOManager :=
  match targets with
  | [] => (0%Z, m)
  | t :: ts =>
      let '(sent, m1) := send t m in
      let '(n, m2) := multicast_to send ts m1 in
      ((Z.b2z sent + n)%Z, m2)
  end.

(** Modelled from the spec: [multicast_msg(r, msg)] is declared only.  It
    resolves the selector, delivers to every matched reactor and returns
    the count of reactors reached. *)
Definition multicast_msg (r : thread_regex) (msg : iomgr_msg) (rnd : nat)
    (m : IOManager) : Z * IOManager :=
  multicast_to (λ t, send_msg t msg) (_pick_reactors r rnd m) m.

(** Modelled from the spec: [multicast_msg_and_wait(r, smsg)] is declared
    only.  As [multicast_msg], returning after all matched reactors have
    executed the message. *)
Definition multicast_msg_and_wait (r : thread_regex) (smsg : iomgr_msg)
    (rnd : nat) (m : IOManager) : Z * IOManager :=
  multicast_to (λ t, send_msg_and_wait t smsg) (_pick_reactors r rnd m) m.

(** *** run_on (from the header) *)

(** [int run_on(thread_regex r, const auto& fn, bool wait_for_completion)];
    [rnd] is the random choice [multicast_msg] makes for a random
    selector. *)
Definition run_on_regex (r : thread_regex) (fn : run_method_t)
    (wait_for_completion : bool) (rnd : nat) (m : IOManager) : Z * IOManager :=
  if wait_for_completion
  then
    let smsg := sync_iomgr_msg RUN_METHOD (m_internal_msg_module_id m) fn in
    multicast_msg_and_wait r smsg rnd m
  else
    multicast_msg r
      (iomgr_msg_create RUN_METHOD (m_internal_msg_module_id m) fn) rnd m.

(** [int run_on(const io_thread_t& thread, const auto& fn,
    bool wait_for_completion)]; the result is [(int)sent]. *)
Definition run_on_thread (thread : io_thread_t) (fn : run_method_t)
    (wait_for_completion : bool) (m : IOManager) : Z * IOManager :=
  let '(sent, m') :=
    if wait_for_completion
    then
      let smsg := sync_iomgr_msg RUN_METHOD (m_internal_msg_module_id m) fn in
      send_msg_and_wait thread smsg m
    else
      send_msg thread
        (iomgr_msg_create RUN_METHOD (m_internal_msg_module_id m) fn) m in
  (Z.b2z sent, m').

(** *** The countdowns and the new Manager *)


(** The Manager as its default member initializers leave it:
    [m_state = stopped], both countdowns 0, null default interfaces, an
    array of [max_msg_modules] empty handlers, [m_msg_handlers_count = 0]. *)
Definition IOManager_default : IOManager :=
  mk_IOManager stopped 0 0 [] [] None None ∅ []
    (replicate max_msg_modules None) 0 0.

(** Modelled from the spec: the constructor [IOManager()] is declared
    only.  The Manager installs its own internal module, the one that
    executes RUN_METHOD messages, and keeps its id. *)
Definition IOManager_new : IOManager :=
  let '(id, m) := register_msg_module internal_handler IOManager_default in
  with_internal_msg_module_id (default 0%nat id) m.

(** The property that a waiter for [s] has returned once the state has
    reached [s]: the state takes the value [s] at time [k], and the waiter,
    which evaluates its predicate at the increasing times [ts], does so
    at some time [t] from [k] on. *)
Definition unblocks_once_reached : Prop :=
  ∀ (h : list iomgr_state) (ts : list nat) (s : iomgr_state) (k t : nat),
    Sorted Nat.le ts → Forall (λ t', t' < length h)%nat ts →
    h !! k = Some s → t ∈ ts → (k ≤ t)%nat →
    is_Some (wait_for_state s (observe h ts)).

(** The states a successful [start] goes through, from [stopped]. *)
Definition startup_order : list iomgr_state :=
  [stopped; interface_init; reactor_init; sys_init; running].

(** ** Sample inputs *)

(** Sixty-six user handlers, enough to exhaust the table. *)
Definition sample_handlers : list msg_handler_t := user_handler <$> seq 0 66.

(** A running Manager with three worker reactors (threads 0 to 2) and
    one tight-loop reactor (thread 3). *)
Definition sample_running : IOManager :=
  with_reactors
    (list_to_map
       [(0%nat, mk_IOReactor true false true [] 0 []);
        (1%nat, mk_IOReactor true false true [] 0 []);
        (2%nat, mk_IOReactor true false true [] 0 []);
        (3%nat, mk_IOReactor true true false [] 0 [])])
    (set_state_and_notify running IOManager_new).

(** The Manager has its internal module installed. *)
Definition internal_module_installed (m : IOManager) : Prop :=
  get_msg_module (m_internal_msg_module_id m) m = Some internal_handler.

(** What reaching a reactor with a message does to it: the message is
    enqueued, and with [wait] the reactor has also executed its queue. *)
Definition reach (handlers : list (option msg_handler_t)) (wait : bool)
    (msg : iomgr_msg) (r : IOReactor) : IOReactor :=
  if wait then process_inbound handlers (deliver_msg msg r)
  else deliver_msg msg r.

(** A run of [set_state_and_notify] calls, one per state of [l]. *)
Definition announce_all (l : list iomgr_state) (m : IOManager) : IOManager :=
  foldl (λ m' s, set_state_and_notify s m') m l.

(** The condition [m_cv.wait(lck, ..)] of [wait_for_state(s)]. *)
Definition state_is (s : iomgr_state) (st : iomgr_state) : bool :=
  bool_decide (st = s).

(** * Properties *)

(** Closed decidable side conditions are settled by evaluation. *)
Ltac by_evaluation := apply (bool_decide_unpack _); vm_compute; exact I.

(** ** Waiting *)

Section cv_wait.
Variable pred : iomgr_state → bool.

Lemma cv_wait_first (pre : list iomgr_state) s post :
  Forall (λ x, pred x = false) pre → pred s = true →
  cv_wait pred (pre ++ s :: post) = Some (length pre, post).
Proof.
  intros Hpre Hs. induction Hpre as [|x pre Hx _ IH]; simpl.
  - by rewrite Hs.
  - by rewrite Hx, IH.
Qed.

Lemma cv_wait_blocked (obs : list iomgr_state) :
  Forall (λ x, pred x = false) obs → cv_wait pred obs = None.
Proof.
  induction 1 as [|x obs Hx _ IH]; simpl; [done|]. by rewrite Hx, IH.
Qed.

Lemma cv_wait_returned (obs : list iomgr_state) n rest :
  cv_wait pred obs = Some (n, rest) →
  ∃ pre s, obs = pre ++ s :: rest ∧ length pre = n
           ∧ Forall (λ x, pred x = false) pre ∧ pred s = true.
Proof.
  revert n. induction obs as [|x obs IH]; simpl; intros n H; [done|].
  destruct (pred x) eqn:Hx.
  - simplify_eq. by exists [], x.
  - destruct (cv_wait pred obs) as [[n' rest']|]; simplify_eq.
    destruct (IH n' eq_refl) as (pre & s & -> & <- & Hpre & Hs).
    exists (x :: pre), s. split_and!; auto.
Qed.
End cv_wait.

Lemma not_elem_of_pred_false (s : iomgr_state) (l : list iomgr_state) :
  s ∉ l → Forall (λ x, bool_decide (x = s) = false) l.
Proof.
  intros Hs. apply Forall_forall. intros x Hx.
  apply bool_decide_eq_false. intros ->. done.
Qed.

Lemma pred_false_not_elem_of (s : iomgr_state) (l : list iomgr_state) :
  Forall (λ x, bool_decide (x = s) = false) l → s ∉ l.
Proof.
  intros Hl Hs. rewrite Forall_forall in Hl.
  specialize (Hl _ Hs). by rewrite bool_decide_eq_false in Hl.
Qed.

Lemma wait_for_state_first (s : iomgr_state) (pre post : list iomgr_state) :
  s ∉ pre →
  wait_for_state s (pre ++ s :: post) = Some (Nat.pred (length pre), post).
Proof.
  intros Hs. destruct pre as [|x pre]; simpl.
  - rewrite bool_decide_eq_false_2; [done|]. by intros [].
  - apply not_elem_of_cons in Hs as [Hx Hs].
    rewrite bool_decide_eq_true_2 by done.
    apply cv_wait_first; [by apply not_elem_of_pred_false|].
    by apply bool_decide_eq_true.
Qed.

Lemma wait_for_state_blocked (s : iomgr_state) (obs : list iomgr_state) :
  s ∉ obs → wait_for_state s obs = None.
Proof.
  intros Hs. destruct obs as [|x obs]; simpl; [done|].
  apply not_elem_of_cons in Hs as [Hx Hs].
  rewrite bool_decide_eq_true_2 by done.
  apply cv_wait_blocked. by apply not_elem_of_pred_false.
Qed.

Lemma wait_to_be_stopped_eq (obs : list iomgr_state) :
  wait_to_be_stopped obs = wait_for_state stopped obs.
Proof. done. Qed.

Lemma wait_to_be_ready_returned (obs : list iomgr_state) n rest :
  wait_to_be_ready obs = Some (n, rest) →
  ∃ pre, obs = pre ++ running :: rest ∧ (running ∉ pre) ∧ length pre = n.
Proof.
  intros H. apply cv_wait_returned in H as (pre & s & -> & <- & Hpre & Hs).
  apply bool_decide_eq_true in Hs as ->.
  exists pre. split_and!; [done| |done]. by apply pred_false_not_elem_of.
Qed.

(** C3, as stated, fails: during a start the state passes through
    [reactor_init]; a waiter in [wait_for_state(reactor_init)] that next
    evaluates its predicate when the state is already [sys_init] stays
    blocked although the state has reached [reactor_init]. *)
Lemma wait_for_state_misses_passed_state : ¬ unblocks_once_reached.
Proof.
  intros H.
  specialize (H startup_order [0; 0; 3; 4]%nat reactor_init 2%nat 3%nat).
  destruct H as [x Hx].
  - repeat constructor.
  - repeat constructor; simpl; lia.
  - reflexivity.
  - set_solver.
  - lia.
  - vm_compute in Hx. discriminate Hx.
Qed.

(** C3 (amended): each of [wait_to_be_ready], [wait_to_be_stopped] and
    [wait_for_state(s)] returns exactly at the first evaluation of its
    predicate that reads a state satisfying it, having blocked once per
    failed evaluation inside [m_cv.wait], and stays blocked as long as no
    evaluation reads such a state; when the predicate holds at the call
    ([pre] empty) it returns without blocking. *)
Theorem wait_returns_at_first_satisfying_load :
  (∀ pre post : list iomgr_state, running ∉ pre →
     wait_to_be_ready (pre ++ running :: post) = Some (length pre, post))
  ∧ (∀ pre post : list iomgr_state, stopped ∉ pre →
     wait_to_be_stopped (pre ++ stopped :: post)
     = Some (Nat.pred (length pre), post))
  ∧ (∀ s (pre post : list iomgr_state), s ∉ pre →
     wait_for_state s (pre ++ s :: post) = Some (Nat.pred (length pre), post))
  ∧ (∀ obs : list iomgr_state, running ∉ obs → wait_to_be_ready obs = None)
  ∧ (∀ obs : list iomgr_state, stopped ∉ obs → wait_to_be_stopped obs = None)
  ∧ (∀ s (obs : list iomgr_state), s ∉ obs → wait_for_state s obs = None)
  ∧ (∀ post, wait_to_be_ready (running :: post) = Some (O, post))
  ∧ (∀ post, wait_to_be_stopped (stopped :: post) = Some (O, post))
  ∧ (∀ s post, wait_for_state s (s :: post) = Some (O, post)).
Proof.
  split_and!.
  - intros pre post H. apply cv_wait_first; [by apply not_elem_of_pred_false|].
    by apply bool_decide_eq_true.
  - intros pre post H. rewrite wait_to_be_stopped_eq.
    by apply wait_for_state_first.
  - intros s pre post H. by apply wait_for_state_first.
  - intros obs H. apply cv_wait_blocked. by apply not_elem_of_pred_false.
  - intros obs H. rewrite wait_to_be_stopped_eq. by apply wait_for_state_blocked.
  - intros s obs H. by apply wait_for_state_blocked.
  - done.
  - done.
  - intros s post. apply (wait_for_state_first s [] post). set_solver.
Qed.

Lemma wait_returns_at_first_satisfying_load_witness :
  wait_to_be_ready ([stopped; sys_init] ++ running :: [running]) = Some (2%nat, [running])
  ∧ wait_to_be_stopped ([running; stopping] ++ stopped :: []) = Some (1%nat, [])
  ∧ wait_for_state sys_init ([stopped; stopped; reactor_init] ++ sys_init :: [running])
    = Some (2%nat, [running])
  ∧ wait_to_be_ready [stopped; sys_init] = None
  ∧ wait_to_be_stopped [running; stopping] = None
  ∧ wait_for_state reactor_init [stopped; stopped; sys_init; running] = None.
Proof.
  destruct wait_returns_at_first_satisfying_load
    as (H1 & H2 & H3 & H4 & H5 & H6 & _).
  split_and!.
  - apply (H1 [stopped; sys_init] [running]). by_evaluation.
  - apply (H2 [running; stopping] []). by_evaluation.
  - apply (H3 sys_init [stopped; stopped; reactor_init] [running]). by_evaluation.
  - apply (H4 [stopped; sys_init]). by_evaluation.
  - apply (H5 [running; stopping]). by_evaluation.
  - apply (H6 reactor_init [stopped; stopped; sys_init; running]). by_evaluation.
Defined.

(** C8: [ensure_running] returns at once, without logging or waiting,
    when the state it reads is [running]; otherwise it logs, does what
    [wait_to_be_ready] does and logs again, so that it returns at the
    first later load that reads [running]; whenever it returns, the last
    state it read is [running]. *)
Theorem ensure_running_wraps_wait_to_be_ready :
  (∀ rest, ensure_running (running :: rest) = Some ([], O, rest))
  ∧ (∀ st rest, st ≠ running →
       ensure_running (st :: rest)
       = (λ '(n, rest'),
            (["IOManager is not running, will wait for it to be ready";
              "IOManager is ready now"]%string, n, rest'))
         <$> wait_to_be_ready rest)
  ∧ (∀ st (pre post : list iomgr_state), st ≠ running → running ∉ pre →
       ensure_running (st :: pre ++ running :: post)
       = Some (["IOManager is not running, will wait for it to be ready";
                "IOManager is ready now"]%string, length pre, post))
  ∧ (∀ obs lg n rest, ensure_running obs = Some (lg, n, rest) →
       ∃ pre, obs = pre ++ running :: rest ∧ running ∉ pre).
Proof.
  split_and!.
  - done.
  - intros st rest Hst. simpl. rewrite bool_decide_eq_true_2 by done.
    by destruct (wait_to_be_ready rest) as [[n rest']|].
  - intros st pre post Hst Hpre. simpl. rewrite bool_decide_eq_true_2 by done.
    unfold wait_to_be_ready. rewrite cv_wait_first; [done| |done].
    by apply not_elem_of_pred_false.
  - intros [|st obs] lg n rest; simpl; [done|].
    case_bool_decide as Hst.
    + destruct (wait_to_be_ready obs) as [[n' rest']|] eqn:Hw; [|done].
      intros [= <- <- <-].
      apply wait_to_be_ready_returned in Hw as (pre & -> & Hpre & _).
      exists (st :: pre). split; [done|]. by apply not_elem_of_cons.
    + intros [= <- <- <-]. subst st.
      exists []. split; [done|]. apply not_elem_of_nil.
Qed.

Lemma ensure_running_wraps_wait_to_be_ready_witness :
  ensure_running (stopped :: [reactor_init; sys_init] ++ running :: [stopping])
  = Some (["IOManager is not running, will wait for it to be ready";
           "IOManager is ready now"]%string, 2%nat, [stopping])
  ∧ ∃ pre, [sys_init; running; running] = pre ++ running :: [running]
           ∧ running ∉ pre.
Proof.
  destruct ensure_running_wraps_wait_to_be_ready as (_ & _ & H3 & H4).
  split.
  - apply (H3 stopped [reactor_init; sys_init] [stopping]); [done|by_evaluation].
  - apply (H4 [sys_init; running; running]
              ["IOManager is not running, will wait for it to be ready";
               "IOManager is ready now"]%string O [running]).
    reflexivity.
Defined.

(** ** Reactor self-classification *)

(** C9: on a thread that is not attached to a reactor, [this_reactor()]
    is null and [am_i_io_reactor], [am_i_tight_loop_reactor] and
    [am_i_worker_reactor] each return false; none of them makes the
    member call, which on the null pointer would fail. *)
Theorem am_i_queries_false_without_reactor (m : IOManager)
    (self : option io_thread_t) :
  this_reactor m self = None →
  am_i_io_reactor m self = Some false
  ∧ am_i_tight_loop_reactor m self = Some false
  ∧ am_i_worker_reactor m self = Some false
  ∧ reactor_call is_io_reactor (this_reactor m self) = None
  ∧ reactor_call is_tight_loop_reactor (this_reactor m self) = None
  ∧ reactor_call is_worker (this_reactor m self) = None.
Proof.
  intros H. unfold am_i_io_reactor, am_i_tight_loop_reactor,
    am_i_worker_reactor. rewrite H. done.
Qed.

Lemma am_i_queries_false_without_reactor_witness :
  am_i_io_reactor IOManager_new None = Some false
  ∧ am_i_tight_loop_reactor IOManager_new None = Some false
  ∧ am_i_worker_reactor IOManager_new None = Some false
  ∧ reactor_call is_io_reactor (this_reactor IOManager_new None) = None
  ∧ reactor_call is_tight_loop_reactor (this_reactor IOManager_new None) = None
  ∧ reactor_call is_worker (this_reactor IOManager_new None) = None.
Proof. apply (am_i_queries_false_without_reactor IOManager_new None). reflexivity. Defined.

(** ** Message modules *)

Lemma register_msg_module_full (h : msg_handler_t) (m : IOManager) :
  (max_msg_modules ≤ m_msg_handlers_count m)%nat →
  register_msg_module h m = (None, m).
Proof.
  intros H. unfold register_msg_module.
  rewrite bool_decide_eq_false_2; [done|lia].
Qed.

Lemma register_all_spec (hs : list msg_handler_t) :
  ∀ (m : IOManager) ids m',
    register_all hs m = (ids, m') →
    length (m_msg_handlers m) = max_msg_modules →
    (m_msg_handlers_count m ≤ max_msg_modules)%nat →
    m_msg_handlers_count m'
    = Nat.min max_msg_modules (m_msg_handlers_count m + length hs)
    ∧ length (m_msg_handlers m') = max_msg_modules
    ∧ (∀ i, (i < length hs)%nat →
         ids !! i
         = Some (if bool_decide (m_msg_handlers_count m + i < max_msg_modules)%nat
                 then Some (m_msg_handlers_count m + i)%nat else None))
    ∧ (∀ j, (j < m_msg_handlers_count m)%nat →
         m_msg_handlers m' !! j = m_msg_handlers m !! j)
    ∧ (∀ i h, (m_msg_handlers_count m + i < max_msg_modules)%nat →
         hs !! i = Some h →
         m_msg_handlers m' !! (m_msg_handlers_count m + i)%nat = Some (Some h)).
Proof.
  induction hs as [|h hs IH]; intros m ids m' Hreg Hlen Hcnt.
  - simpl in Hreg. simplify_eq.
    split_and!; [cbn [length]; lia|done|intros i Hi; simpl in Hi; lia|done|done].
  - simpl in Hreg.
    destruct (register_msg_module h m) as [id m1] eqn:Hone.
    destruct (register_all hs m1) as [ids' m2] eqn:Hrest. simplify_eq.
    unfold register_msg_module in Hone. case_bool_decide as Hfree; simplify_eq.
    + set (c := m_msg_handlers_count m) in *.
      apply IH in Hrest as (Hc & Hl & Hids & Hold & Hnew);
        cbn [m_msg_handlers_count m_msg_handlers with_msg_handlers] in *;
        [|by rewrite length_insert|lia].
      fold c in Hc, Hids, Hold, Hnew.
      split_and!.
      * cbn [length]. lia.
      * done.
      * intros [|i] Hi; cbn [length] in Hi; simpl.
        -- rewrite Nat.add_0_r, bool_decide_eq_true_2; done.
        -- rewrite Hids by lia.
           replace (c + S i)%nat with (S c + i)%nat by lia. done.
      * intros j Hj. rewrite Hold by lia.
        apply list_lookup_insert_ne. lia.
      * intros [|i] h' Hi Hh; simpl in Hh.
        -- simplify_eq. rewrite Nat.add_0_r, Hold by lia.
           apply list_lookup_insert_eq. lia.
        -- replace (c + S i)%nat with (S c + i)%nat by lia.
           apply Hnew; [lia|done].
    + apply IH in Hrest as (Hc & Hl & Hids & Hold & Hnew); [|done..].
      split_and!.
      * cbn [length]. lia.
      * done.
      * intros [|i] Hi; cbn [length] in Hi; simpl.
        -- by rewrite bool_decide_eq_false_2 by lia.
        -- rewrite Hids by lia.
           rewrite !bool_decide_eq_false_2 by lia. done.
      * done.
      * intros i h' Hi. lia.
Qed.

(** C1: starting from the empty table, in every sequence of calls to
    [register_msg_module] the call number [i] (from 0) succeeds with id
    [i] while [i < 64] and fails from the 65th call on; after the whole
    sequence slot [i] still holds the handler of call [i], the table
    still has 64 slots, and a call on the full table returns failure and
    leaves the Manager as it is. *)
Theorem register_msg_module_64_slots (hs : list msg_handler_t) (m : IOManager)
    (ids : list (option msg_module_id_t)) (m' : IOManager) :
  m_msg_handlers_count m = O →
  length (m_msg_handlers m) = max_msg_modules →
  register_all hs m = (ids, m') →
  (∀ i, (i < length hs)%nat →
     ids !! i = Some (if bool_decide (i < 64)%nat then Some i else None))
  ∧ (∀ i h, (i < 64)%nat → hs !! i = Some h →
       m_msg_handlers m' !! i = Some (Some h)
       ∧ get_msg_module i m' = Some h)
  ∧ length (m_msg_handlers m') = 64%nat
  ∧ ((64 ≤ length hs)%nat →
       ∀ h, register_msg_module h m' = (None, m')).
Proof.
  intros Hcnt Hlen Hreg.
  apply register_all_spec in Hreg as (Hc & Hl & Hids & _ & Hnew);
    [|done|rewrite Hcnt; unfold max_msg_modules; lia].
  rewrite Hcnt in Hc, Hids, Hnew. cbn [Nat.add] in Hc, Hids, Hnew. split_and!.
  - exact Hids.
  - intros i h Hi Hh. unfold get_msg_module, handler_of.
    rewrite (Hnew i h Hi Hh). split; reflexivity.
  - exact Hl.
  - intros Hfull h. apply register_msg_module_full. rewrite Hc.
    unfold max_msg_modules. lia.
Qed.

Lemma register_msg_module_64_slots_witness :
  (∀ i, (i < length sample_handlers)%nat →
     (register_all sample_handlers IOManager_default).1 !! i
     = Some (if bool_decide (i < 64)%nat then Some i else None))
  ∧ (∀ i h, (i < 64)%nat → sample_handlers !! i = Some h →
       m_msg_handlers (register_all sample_handlers IOManager_default).2 !! i
       = Some (Some h)
       ∧ get_msg_module i (register_all sample_handlers IOManager_default).2
         = Some h)
  ∧ length (m_msg_handlers (register_all sample_handlers IOManager_default).2)
    = 64%nat
  ∧ ((64 ≤ length sample_handlers)%nat →
       ∀ h, register_msg_module h
              (register_all sample_handlers IOManager_default).2
            = (None, (register_all sample_handlers IOManager_default).2)).
Proof.
  apply (register_msg_module_64_slots sample_handlers IOManager_default).
  - reflexivity.
  - reflexivity.
  - vm_compute. reflexivity.
Defined.

(** ** The message bus *)

Lemma with_reactors_twice (p1 p2 : gmap nat IOReactor) (m : IOManager) :
  with_reactors p2 (with_reactors p1 m) = with_reactors p2 m.
Proof. done. Qed.

(** C10: [run_on] for a single thread returns 0 or 1, the integer value
    of the delivery result: 1 exactly when the handle resolves to a live
    reactor, which has then received the RUN_METHOD message (and, with
    [wait_for_completion], executed it); 0 otherwise, with the Manager
    unchanged. *)
Theorem run_on_thread_zero_or_one (thread : nat) (fn : run_method_t)
    (wait_for_completion : bool) (m : IOManager) :
  let msg := mk_iomgr_msg RUN_METHOD (m_internal_msg_module_id m) (Some fn)
               wait_for_completion in
  run_on_thread thread fn wait_for_completion m
  = match m_reactors m !! thread with
    | Some r =>
        (1%Z,
         with_reactors
           (<[thread := reach (m_msg_handlers m) wait_for_completion msg r]>
              (m_reactors m)) m)
    | None => (0%Z, m)
    end
  ∧ (0 ≤ (run_on_thread thread fn wait_for_completion m).1 ≤ 1)%Z
  ∧ (run_on_thread thread fn wait_for_completion m).1
    = Z.b2z (if wait_for_completion
             then (send_msg_and_wait thread msg m).1
             else (send_msg thread msg m).1)
  ∧ ((run_on_thread thread fn wait_for_completion m).1 = 1%Z
     ↔ is_Some (m_reactors m !! thread)).
Proof.
  intros msg. subst msg.
  unfold run_on_thread, send_msg, send_msg_and_wait, reach, sync_iomgr_msg,
    iomgr_msg_create.
  destruct wait_for_completion, (m_reactors m !! thread) as [r|]; simpl;
    (split_and!; [done|lia|done|..]);
    first [done | by eauto | by intros [? ?]].
Qed.

Lemma run_on_thread_zero_or_one_witness :
  (0 ≤ (run_on_thread 1 (Method 5) true sample_running).1 ≤ 1)%Z
  ∧ ((run_on_thread 9 (Method 5) false sample_running).1 = 1%Z
     ↔ is_Some (m_reactors sample_running !! 9%nat)).
Proof.
  split.
  - apply (run_on_thread_zero_or_one 1 (Method 5) true sample_running).
  - apply (run_on_thread_zero_or_one 9 (Method 5) false sample_running).
Defined.

Lemma elem_of_live_matching (r : thread_regex) (m : IOManager) (t : nat) :
  t ∈ live_matching r m
  ↔ ∃ reactor, m_reactors m !! t = Some reactor
               ∧ regex_matches r reactor = true.
Proof.
  unfold live_matching. rewrite list_elem_of_fmap. split.
  - intros ([t' reactor] & -> & H). apply elem_of_map_to_list in H.
    apply map_lookup_filter_Some in H as [H1 H2]. by exists reactor.
  - intros (reactor & H1 & H2). exists (t, reactor). split; [done|].
    apply elem_of_map_to_list, map_lookup_filter_Some. done.
Qed.

Lemma NoDup_live_matching (r : thread_regex) (m : IOManager) :
  NoDup (live_matching r m).
Proof. apply NoDup_fst_map_to_list. Qed.

Lemma pick_reactors_sound (r : thread_regex) (rnd : nat) (m : IOManager) :
  NoDup (_pick_reactors r rnd m)
  ∧ ∀ t, t ∈ _pick_reactors r rnd m →
         ∃ reactor, m_reactors m !! t = Some reactor
                    ∧ regex_matches r reactor = true.
Proof.
  unfold _pick_reactors. destruct (regex_is_random r).
  - destruct (live_matching r m !! _) as [t|] eqn:Ht.
    + split; [apply NoDup_singleton|]. intros t' ->%list_elem_of_singleton.
      apply elem_of_live_matching. by eapply list_elem_of_lookup_2.
    + split; [apply NoDup_nil_2|]. intros t' Ht'. by apply elem_of_nil in Ht'.
  - split; [apply NoDup_live_matching|]. intros t. apply elem_of_live_matching.
Qed.

Section multicast.
Variable handlers : list (option msg_handler_t).
Variable f : IOReactor → IOReactor.
Variable send : nat → IOManager → bool * IOManager.
Hypothesis send_spec : ∀ t m, m_msg_handlers m = handlers →
  send t m = match m_reactors m !! t with
             | Some r => (true, with_reactors (<[t := f r]> (m_reactors m)) m)
             | None => (false, m)
             end.

Lemma multicast_to_reached (targets : list nat) :
  ∀ m, m_msg_handlers m = handlers → NoDup targets →
    (∀ t, t ∈ targets → is_Some (m_reactors m !! t)) →
    ∃ pool', multicast_to send targets m
             = (Z.of_nat (length targets), with_reactors pool' m)
      ∧ ∀ t, pool' !! t = if bool_decide (t ∈ targets)
                          then f <$> m_reactors m !! t
                          else m_reactors m !! t.
Proof.
  induction targets as [|t ts IH]; intros m Hhs Hnd Hlive.
  - exists (m_reactors m). split; [by destruct m|]. intros t.
    rewrite bool_decide_eq_false_2; [done|apply not_elem_of_nil].
  - apply NoDup_cons in Hnd as [Ht Hnd].
    destruct (Hlive t) as [r Hr]; [left|].
    cbn [multicast_to]. rewrite send_spec, Hr by done.
    set (m1 := with_reactors _ m).
    destruct (IH m1) as (pool' & Hrun & Hpool); [done|done| |].
    { intros t' Ht'. simpl. rewrite lookup_insert_ne by (by intros ->).
      apply Hlive. by right. }
    exists pool'. rewrite Hrun. split.
    { unfold m1. rewrite with_reactors_twice. f_equal. cbn [length]. simpl. lia. }
    intros t'. rewrite Hpool. simpl. destruct (decide (t' = t)) as [->|Hne].
    + rewrite bool_decide_eq_false_2, bool_decide_eq_true_2 by (done || by left).
      by rewrite lookup_insert_eq, Hr.
    + rewrite lookup_insert_ne by done.
      destruct (decide (t' ∈ ts)).
      * rewrite !bool_decide_eq_true_2; [done|by right|done].
      * rewrite !bool_decide_eq_false_2; [done| |done].
        by intros [?|?]%elem_of_cons.
Qed.
End multicast.

Lemma send_msg_spec (msg : iomgr_msg) (t : nat) (m : IOManager) :
  send_msg t msg m
  = match m_reactors m !! t with
    | Some r => (true, with_reactors (<[t := deliver_msg msg r]> (m_reactors m)) m)
    | None => (false, m)
    end.
Proof. done. Qed.

Lemma send_msg_and_wait_spec (hs : list (option msg_handler_t))
    (msg : iomgr_msg) (t : nat) (m : IOManager) :
  m_msg_handlers m = hs →
  send_msg_and_wait t msg m
  = match m_reactors m !! t with
    | Some r =>
        (true,
         with_reactors
           (<[t := process_inbound hs (deliver_msg msg r)]> (m_reactors m)) m)
    | None => (false, m)
    end.
Proof. by intros <-. Qed.

Lemma process_inbound_last (hs : list (option msg_handler_t))
    (msg : iomgr_msg) (r : IOReactor) :
  last (r_dispatched (process_inbound hs (deliver_msg msg r)))
  = Some (handler_of hs (m_dest_module msg), msg).
Proof.
  unfold process_inbound, deliver_msg. cbn [r_dispatched r_inbound].
  rewrite fmap_app, app_assoc. apply last_snoc.
Qed.

Lemma internal_module_installed_new : internal_module_installed IOManager_new.
Proof. reflexivity. Qed.

(** C4: [run_on] for a selector returns what [multicast_msg_and_wait]
    (with [wait_for_completion]) or [multicast_msg] (without) returns for
    a RUN_METHOD message tagged with the Manager's internal module id,
    and this is the number of reactors reached: the selector resolves to
    distinct live reactors that match it, each of them receives the
    message, and no other reactor changes.  The message is executed by
    the Manager's internal handler: with [wait_for_completion] it is the
    last message the reached reactor has dispatched on return, without it
    is the last in the reactor's queue and is dispatched to the internal
    handler when the reactor works off its queue. *)
Theorem run_on_regex_reached_count (r : thread_regex) (fn : run_method_t)
    (wait_for_completion : bool) (rnd : nat) (m : IOManager) :
  internal_module_installed m →
  let targets := _pick_reactors r rnd m in
  let msg := mk_iomgr_msg RUN_METHOD (m_internal_msg_module_id m) (Some fn)
               wait_for_completion in
  let reached := reach (m_msg_handlers m) wait_for_completion msg in
  run_on_regex r fn wait_for_completion rnd m
  = (if wait_for_completion then multicast_msg_and_wait r msg rnd m
     else multicast_msg r msg rnd m)
  ∧ NoDup targets
  ∧ ∃ pool',
      run_on_regex r fn wait_for_completion rnd m
      = (Z.of_nat (length targets), with_reactors pool' m)
      ∧ (∀ t, t ∉ targets → pool' !! t = m_reactors m !! t)
      ∧ (∀ t, t ∈ targets →
           ∃ r0, m_reactors m !! t = Some r0
                 ∧ regex_matches r r0 = true
                 ∧ pool' !! t = Some (reached r0)
                 ∧ last (r_dispatched
                           (if wait_for_completion then reached r0
                            else process_inbound (m_msg_handlers m) (reached r0)))
                   = Some (Some internal_handler, msg)
                 ∧ (wait_for_completion = false →
                    last (r_inbound (reached r0)) = Some msg)).
Proof.
  intros Hint targets msg reached.
  destruct (pick_reactors_sound r rnd m) as [Hnd Hlive]. fold targets in Hnd, Hlive.
  split; [by destruct wait_for_completion|]. split; [done|].
  assert (∃ pool',
            run_on_regex r fn wait_for_completion rnd m
            = (Z.of_nat (length targets), with_reactors pool' m)
            ∧ ∀ t, pool' !! t = if bool_decide (t ∈ targets)
                                then reached <$> m_reactors m !! t
                                else m_reactors m !! t) as (pool' & Hrun & Hpool).
  { unfold run_on_regex, multicast_msg, multicast_msg_and_wait.
    subst reached msg. destruct wait_for_completion; fold targets.
    - apply (multicast_to_reached (m_msg_handlers m)); [|done|done|].
      + intros t m' Hm'. by apply send_msg_and_wait_spec.
      + intros t Ht. destruct (Hlive t Ht) as (r0 & -> & _). by eexists.
    - apply (multicast_to_reached (m_msg_handlers m)); [|done|done|].
      + intros t m' Hm'. apply send_msg_spec.
      + intros t Ht. destruct (Hlive t Ht) as (r0 & -> & _). by eexists. }
  exists pool'. split; [done|]. split.
  - intros t Ht. by rewrite Hpool, bool_decide_eq_false_2.
  - intros t Ht. destruct (Hlive t Ht) as (r0 & Hr0 & Hmatch).
    exists r0. rewrite Hpool, bool_decide_eq_true_2, Hr0 by done.
    split_and!; [done|done|done| |].
    + unfold internal_module_installed, get_msg_module in Hint.
      subst reached msg. unfold reach.
      destruct wait_for_completion; rewrite process_inbound_last;
        cbn [m_dest_module]; by rewrite Hint.
    + intros ->. subst reached. simpl. apply last_snoc.
Qed.

Lemma run_on_regex_reached_count_witness :
  (run_on_regex regex_all_worker (Method 5) true 0 sample_running).1 = 3%Z
  ∧ (run_on_regex regex_random_tloop (Method 5) false 0 sample_running).1 = 1%Z.
Proof.
  split.
  - destruct (run_on_regex_reached_count regex_all_worker (Method 5) true 0
                sample_running) as (_ & _ & pool' & H & _).
    + vm_compute. reflexivity.
    + rewrite H. vm_compute. reflexivity.
  - destruct (run_on_regex_reached_count regex_random_tloop (Method 5) false 0
                sample_running) as (_ & _ & pool' & H & _).
    + vm_compute. reflexivity.
    + rewrite H. vm_compute. reflexivity.
Defined.

(** ** Further properties of the waiting functions *)

Lemma cv_wait_app (pred : iomgr_state → bool) (obs more : list iomgr_state)
    n rest :
  cv_wait pred obs = Some (n, rest) →
  cv_wait pred (obs ++ more) = Some (n, rest ++ more).
Proof.
  revert n. induction obs as [|x obs IH]; simpl; intros n H; [done|].
  destruct (pred x); [by simplify_eq|].
  destruct (cv_wait pred obs) as [[n' rest']|]; simplify_eq.
  by rewrite (IH n' eq_refl).
Qed.

Lemma cv_wait_resume (pred : iomgr_state → bool) (obs more : list iomgr_state) :
  cv_wait pred obs = None →
  cv_wait pred (obs ++ more)
  = (λ '(n, r), (length obs + n, r)%nat) <$> cv_wait pred more.
Proof.
  induction obs as [|x obs IH]; simpl; intros H.
  - by destruct (cv_wait pred more) as [[n r]|].
  - destruct (pred x); [done|].
    destruct (cv_wait pred obs) as [[n' rest']|]; [done|].
    rewrite IH by done. by destruct (cv_wait pred more) as [[n r]|].
Qed.

Lemma cv_wait_consumes (pred : iomgr_state → bool) (obs : list iomgr_state)
    n rest :
  cv_wait pred obs = Some (n, rest) → length obs = (length rest + S n)%nat.
Proof.
  intros H. apply cv_wait_returned in H as (pre & s & -> & <- & _).
  rewrite length_app. simpl. lia.
Qed.

Lemma wait_for_state_returned (s : iomgr_state) (obs : list iomgr_state)
    n rest :
  wait_for_state s obs = Some (n, rest) →
  ∃ pre, obs = pre ++ s :: rest ∧ (s ∉ pre) ∧ n = Nat.pred (length pre).
Proof.
  destruct obs as [|x obs]; simpl; [done|]. case_bool_decide as Hx.
  - intros H. apply cv_wait_returned in H as (pre & s' & -> & <- & Hpre & Hs).
    apply bool_decide_eq_true in Hs as ->. exists (x :: pre).
    split_and!; [done| |done].
    apply not_elem_of_cons. split; [done|]. by apply pred_false_not_elem_of.
  - intros [= <- <-]. subst x. exists []. split_and!; [done| |done].
    apply not_elem_of_nil.
Qed.

(** X1: [wait_to_be_ready] and [wait_for_state(running)] return at the
    same load on every sequence of loads; [wait_to_be_ready], which has
    no check before [m_cv.wait], blocks once more when the first load is
    not [running].  [wait_to_be_stopped] is [wait_for_state(stopped)]. *)
Theorem waiters_return_at_same_load (obs : list iomgr_state) :
  snd <$> wait_to_be_ready obs = snd <$> wait_for_state running obs
  ∧ wait_to_be_ready obs
    = (λ '(n, r), (match obs with
                   | st :: _ => if is_ready st then n else S n
                   | [] => n
                   end, r)) <$> wait_for_state running obs
  ∧ wait_to_be_stopped obs = wait_for_state stopped obs.
Proof.
  destruct obs as [|st obs]; [done|]. unfold wait_to_be_ready, is_ready. simpl.
  destruct (decide (st = running)) as [->|Hst].
  - done.
  - rewrite (bool_decide_eq_false_2 (st = running)) by done.
    rewrite (bool_decide_eq_true_2 (st ≠ running)) by done.
    by destruct (cv_wait _ obs) as [[n r]|].
Qed.

(** X2: a waiter that has returned read nothing beyond the load it
    returned on: with further loads appended it returns in the same way
    and leaves these loads unread.  This holds for [wait_to_be_ready],
    [wait_to_be_stopped], [wait_for_state] and [ensure_running]. *)
Theorem waiter_reads_no_further (more : list iomgr_state) :
  (∀ obs n rest, wait_to_be_ready obs = Some (n, rest) →
     wait_to_be_ready (obs ++ more) = Some (n, rest ++ more))
  ∧ (∀ obs n rest, wait_to_be_stopped obs = Some (n, rest) →
     wait_to_be_stopped (obs ++ more) = Some (n, rest ++ more))
  ∧ (∀ s obs n rest, wait_for_state s obs = Some (n, rest) →
     wait_for_state s (obs ++ more) = Some (n, rest ++ more))
  ∧ (∀ obs lg n rest, ensure_running obs = Some (lg, n, rest) →
     ensure_running (obs ++ more) = Some (lg, n, rest ++ more)).
Proof.
  assert (∀ s obs n rest, wait_for_state s obs = Some (n, rest) →
            wait_for_state s (obs ++ more) = Some (n, rest ++ more)) as Hfor.
  { intros s [|x obs] n rest; simpl; [done|]. case_bool_decide.
    - apply cv_wait_app.
    - by intros [= <- <-]. }
  split_and!.
  - intros obs n rest. apply cv_wait_app.
  - intros obs n rest. apply (Hfor stopped).
  - done.
  - intros [|x obs] lg n rest; simpl; [done|]. case_bool_decide.
    + unfold wait_to_be_ready.
      destruct (cv_wait _ obs) as [[n' r']|] eqn:Hw; [|done].
      intros [= <- <- <-]. by rewrite (cv_wait_app _ _ _ _ _ Hw).
    + by intros [= <- <- <-].
Qed.

Lemma waiter_reads_no_further_witness :
  wait_to_be_ready ([stopped; running; stopping] ++ [stopped])
  = Some (1%nat, [stopping] ++ [stopped])
  ∧ wait_for_state sys_init ([stopped; sys_init] ++ [running])
    = Some (O, [] ++ [running])
  ∧ ensure_running ([reactor_init; running] ++ [stopping])
    = Some (["IOManager is not running, will wait for it to be ready";
             "IOManager is ready now"]%string, O, [] ++ [stopping]).
Proof.
  destruct (waiter_reads_no_further [stopped]) as (H1 & _).
  destruct (waiter_reads_no_further [running]) as (_ & _ & H3 & _).
  destruct (waiter_reads_no_further [stopping]) as (_ & _ & _ & H4).
  split; [apply (H1 [stopped; running; stopping]); reflexivity|].
  split; [apply (H3 sys_init [stopped; sys_init]); reflexivity|].
  apply (H4 [reactor_init; running]); reflexivity.
Defined.

(** X3: a waiter that is still blocked after the loads [obs] goes on with
    the later loads from where it is: it returns at the first later load
    that satisfies its predicate, and each of the loads that did not is
    one more block ([wait_for_state] makes its first two loads before it
    blocks for the first time). *)
Theorem blocked_waiter_resumes (obs more : list iomgr_state) :
  (wait_to_be_ready obs = None →
     wait_to_be_ready (obs ++ more)
     = (λ '(n, r), (length obs + n, r)%nat) <$> wait_to_be_ready more)
  ∧ (∀ s, obs ≠ [] → wait_for_state s obs = None →
       wait_for_state s (obs ++ more)
       = (λ '(n, r), (Nat.pred (length obs) + n, r)%nat)
         <$> cv_wait (state_is s) more).
Proof.
  split.
  - apply cv_wait_resume.
  - intros s Hne. destruct obs as [|x obs]; [done|]. simpl.
    case_bool_decide; [|done]. apply (cv_wait_resume (state_is s)).
Qed.

Lemma blocked_waiter_resumes_witness :
  wait_to_be_ready ([stopped; sys_init] ++ [sys_init; running; stopping])
  = (λ '(n, r), (length [stopped; sys_init] + n, r)%nat)
    <$> wait_to_be_ready [sys_init; running; stopping]
  ∧ wait_for_state stopped ([running; running] ++ [stopping; stopped])
    = (λ '(n, r), (Nat.pred (length [running; running]) + n, r)%nat)
      <$> cv_wait (state_is stopped) [stopping; stopped].
Proof.
  destruct (blocked_waiter_resumes [stopped; sys_init]
              [sys_init; running; stopping]) as [H1 _].
  destruct (blocked_waiter_resumes [running; running] [stopping; stopped])
    as [_ H2].
  split; [apply H1; reflexivity|]. apply (H2 stopped); [discriminate|reflexivity].
Defined.

(** X4: a waiter returns only on a load that satisfies its predicate:
    when [wait_to_be_ready], [wait_to_be_stopped] or [wait_for_state(s)]
    has returned, the last load it made read the awaited state, no
    earlier load did, and every load it made but the last one (for
    [wait_for_state] and [wait_to_be_stopped]: but the first and the last
    one) was followed by one block. *)
Theorem waiter_returns_only_on_awaited_state (obs : list iomgr_state)
    (n : nat) (rest : list iomgr_state) :
  (wait_to_be_ready obs = Some (n, rest) →
     ∃ pre, obs = pre ++ running :: rest ∧ (running ∉ pre) ∧ n = length pre)
  ∧ (wait_to_be_stopped obs = Some (n, rest) →
     ∃ pre, obs = pre ++ stopped :: rest ∧ (stopped ∉ pre)
            ∧ n = Nat.pred (length pre))
  ∧ (∀ s, wait_for_state s obs = Some (n, rest) →
     ∃ pre, obs = pre ++ s :: rest ∧ (s ∉ pre) ∧ n = Nat.pred (length pre)).
Proof.
  split_and!.
  - intros H. apply wait_to_be_ready_returned in H as (pre & -> & Hpre & <-).
    by exists pre.
  - apply (wait_for_state_returned stopped).
  - intros s. apply wait_for_state_returned.
Qed.

Lemma waiter_returns_only_on_awaited_state_witness :
  (∃ pre, [stopped; sys_init; running; stopping] = pre ++ running :: [stopping]
          ∧ (running ∉ pre) ∧ 2%nat = length pre)
  ∧ (∃ pre, [running; stopping; stopped] = pre ++ stopped :: []
            ∧ (stopped ∉ pre) ∧ 1%nat = Nat.pred (length pre)).
Proof.
  split.
  - destruct (waiter_returns_only_on_awaited_state
                [stopped; sys_init; running; stopping] 2 [stopping])
      as (H & _).
    apply H. reflexivity.
  - destruct (waiter_returns_only_on_awaited_state
                [running; stopping; stopped] 1 []) as (_ & H & _).
    apply H. reflexivity.
Defined.

(** X5: [ensure_running] returns at the same load as [wait_to_be_ready];
    when it returns, it has logged nothing exactly if [is_ready] holds of
    its first load, and otherwise it has logged its two lines and has
    blocked once less than [wait_to_be_ready] does on the same loads (its
    first load is made before [wait_to_be_ready] is entered). *)
Theorem ensure_running_against_wait_to_be_ready :
  (∀ obs, (snd <$> ensure_running obs) = (snd <$> wait_to_be_ready obs))
  ∧ (∀ st obs lg n rest, ensure_running (st :: obs) = Some (lg, n, rest) →
       (lg = [] ↔ is_ready st = true)
       ∧ (is_ready st = true → n = O ∧ rest = obs)
       ∧ (is_ready st = false →
          length lg = 2%nat ∧ wait_to_be_ready (st :: obs) = Some (S n, rest))).
Proof.
  split.
  - intros [|st obs]; [done|]. unfold wait_to_be_ready. simpl.
    destruct (decide (st = running)) as [->|Hst]; [done|].
    rewrite (bool_decide_eq_false_2 (st = running)) by done.
    rewrite (bool_decide_eq_true_2 (st ≠ running)) by done.
    unfold wait_to_be_ready. by destruct (cv_wait _ obs) as [[n r]|].
  - intros st obs lg n rest. unfold is_ready, wait_to_be_ready. simpl.
    destruct (decide (st = running)) as [->|Hst].
    + intros [= <- <- <-]. done.
    + rewrite (bool_decide_eq_false_2 (st = running)) by done.
      rewrite (bool_decide_eq_true_2 (st ≠ running)) by done.
      unfold wait_to_be_ready. destruct (cv_wait _ obs) as [[n' r']|]; [|done].
      intros [= <- <- <-]. done.
Qed.

Lemma ensure_running_against_wait_to_be_ready_witness :
  ((["IOManager is not running, will wait for it to be ready";
     "IOManager is ready now"]%string = [] ↔ is_ready sys_init = true)
   ∧ (is_ready sys_init = true → 1%nat = O ∧ [stopping] = [sys_init; running; stopping])
   ∧ (is_ready sys_init = false →
      length ["IOManager is not running, will wait for it to be ready";
              "IOManager is ready now"]%string = 2%nat
      ∧ wait_to_be_ready (sys_init :: [sys_init; running; stopping])
        = Some (2%nat, [stopping]))).
Proof.
  destruct ensure_running_against_wait_to_be_ready as [_ H].
  apply (H sys_init [sys_init; running; stopping]). reflexivity.
Defined.

(** ** Further properties of the state accessors *)

Lemma announce_all_eq (l : list iomgr_state) :
  ∀ m, announce_all l m
       = with_cv (m_cv m ++ l) (with_state (default (get_state m) (last l)) m).
Proof.
  unfold announce_all. induction l as [|s l IH] using rev_ind; intros m.
  - simpl. rewrite app_nil_r. by destruct m.
  - rewrite foldl_app, last_snoc. simpl. rewrite IH.
    unfold set_state_and_notify, set_state, with_cv, with_state. simpl.
    by rewrite <- app_assoc.
Qed.

(** X7: a run of [set_state_and_notify] calls announces its states in
    order, one announcement per call, and leaves the Manager in the last
    of them (in its old state when the run is empty); the reactors, the
    interfaces and the message modules are not touched. *)
Theorem announce_all_in_order (l : list iomgr_state) (m : IOManager) :
  m_cv (announce_all l m) = m_cv m ++ l
  ∧ get_state (announce_all l m) = default (get_state m) (last l)
  ∧ announce_all l m = with_cv (m_cv m ++ l)
                         (with_state (default (get_state m) (last l)) m).
Proof. by rewrite announce_all_eq. Qed.



(** ** The startup and stop countdowns *)


